(** * include/sys/zfs_debug.h: debug flags, the debug-message log and the
      instrumentation entry points

    The header declares four global integers, eleven [ZFS_DEBUG_*] category
    masks, the two macros [zfs_dbgmsg] and [dprintf], and the prototypes of
    the functions behind them.  The masks and the macros are embedded from
    the header; the functions whose bodies live outside the header are
    modelled from the specification and marked as such. *)

From Stdlib Require Import ZArith List String Ascii Bool Lia Arith.
From Stdlib Require Import DecimalString Permutation.
Import ListNotations.

Local Open Scope Z_scope.

(** ** Flag registry: the category masks of lines 46-57 *)

Module Flags.

Definition ZFS_DEBUG_DPRINTF          : Z := Z.shiftl 1 0.
Definition ZFS_DEBUG_DBUF_VERIFY      : Z := Z.shiftl 1 1.
Definition ZFS_DEBUG_DNODE_VERIFY     : Z := Z.shiftl 1 2.
Definition ZFS_DEBUG_SNAPNAMES        : Z := Z.shiftl 1 3.
Definition ZFS_DEBUG_MODIFY           : Z := Z.shiftl 1 4.
(* 1<<5 was previously used, try not to reuse *)
Definition ZFS_DEBUG_ZIO_FREE         : Z := Z.shiftl 1 6.
Definition ZFS_DEBUG_HISTOGRAM_VERIFY : Z := Z.shiftl 1 7.
Definition ZFS_DEBUG_METASLAB_VERIFY  : Z := Z.shiftl 1 8.
Definition ZFS_DEBUG_SET_ERROR        : Z := Z.shiftl 1 9.
Definition ZFS_DEBUG_INDIRECT_REMAP   : Z := Z.shiftl 1 10.
Definition ZFS_DEBUG_TRIM             : Z := Z.shiftl 1 11.

(** The [#define]s of the header, in the order they appear. *)
Definition categories : list Z :=
  [ ZFS_DEBUG_DPRINTF; ZFS_DEBUG_DBUF_VERIFY; ZFS_DEBUG_DNODE_VERIFY;
    ZFS_DEBUG_SNAPNAMES; ZFS_DEBUG_MODIFY; ZFS_DEBUG_ZIO_FREE;
    ZFS_DEBUG_HISTOGRAM_VERIFY; ZFS_DEBUG_METASLAB_VERIFY;
    ZFS_DEBUG_SET_ERROR; ZFS_DEBUG_INDIRECT_REMAP; ZFS_DEBUG_TRIM ].

(** The shift counts written in those [#define]s. *)
Definition category_bits : list Z := [0; 1; 2; 3; 4; 6; 7; 8; 9; 10; 11].

(** C truth value of an [int] used as a condition. *)
Definition truthy (v : Z) : bool := negb (v =? 0).

(** The test [flags & category], as the [dprintf] macro and the call sites
    write it. *)
Definition active (flags category : Z) : bool :=
  truthy (Z.land flags category).

(** [flags |= category] and [flags &= ~category]. *)
Definition set_category (flags category : Z) : Z := Z.lor flags category.
Definition clear_category (flags category : Z) : Z :=
  Z.land flags (Z.lnot category).

End Flags.

(** ** Bounded message log *)

Module Log.

Local Open Scope nat_scope.

(** Modelled from the spec: the body of [__zfs_dbgmsg] and the log it
    appends to are not in the header (line 59 only declares the function).
    Section 3 gives the log an ordered collection of entries, a running
    byte-size total and a configured cap; section 4.3 gives [append] as
    "adds the entry, then evicts oldest entries while over the size cap",
    and sections 3 and 7 have an entry larger than the cap rejected.
    The oldest entry is the head of [entries], the newest its last element. *)
Record t : Type := mk {
  entries : list string;
  size : nat;
  maxsize : nat
}.

(** Modelled from the spec: the byte size of an entry is the length of its
    text (section 8 counts a 40-byte text as 40 bytes). *)
Definition entry_size (text : string) : nat := String.length text.

Definition total_size (es : list string) : nat :=
  fold_right (fun e acc => entry_size e + acc) 0 es.

(** Modelled from the spec: [init()] of section 4.5, an empty log. *)
Definition init (cap : nat) : t := mk [] 0 cap.

(** Modelled from the spec: the eviction loop of [append], "evicts oldest
    entries while over the size cap"; it stops when the collection is
    empty. *)
Fixpoint purge (cap : nat) (es : list string) (sz : nat)
  : list string * nat :=
  match es with
  | [] => ([], sz)
  | oldest :: rest =>
      if cap <? sz then purge cap rest (sz - entry_size oldest)
      else (es, sz)
  end.

(** Modelled from the spec: the first half of [append(text)] of section
    4.3, "adds the entry"; the running total grows by the entry's size. *)
Definition add (text : string) (l : t) : t :=
  mk (entries l ++ [text]) (size l + entry_size text) (maxsize l).

(** Modelled from the spec: the second half of [append(text)], "then evicts
    oldest entries while over the size cap". *)
Definition evict (l : t) : t :=
  let (es, sz) := purge (maxsize l) (entries l) (size l) in
  mk es sz (maxsize l).

(** Modelled from the spec: sections 3 and 7, "a single entry that itself
    exceeds the cap is truncated or rejected"; the test for such an entry. *)
Definition oversized (text : string) (l : t) : bool :=
  maxsize l <? entry_size text.

(** Modelled from the spec: [append(text)] of sections 3, 4.3 and 7, whose
    body (that of [__zfs_dbgmsg]) is not in the header.  An entry larger than
    the cap is rejected and the log stays as it was; any other entry is
    added, and the oldest entries are evicted while the total is over the
    cap. *)
Definition append (text : string) (l : t) : t :=
  if oversized text l then l else evict (add text l).

(** The entries of [msgs] that a log of cap [cap] does not reject. *)
Definition accepted (cap : nat) (msgs : list string) : list string :=
  filter (fun m => entry_size m <=? cap) msgs.

Definition appends (msgs : list string) (l : t) : t :=
  fold_left (fun acc m => append m acc) msgs l.

(** The log after each append of a sequence, in order. *)
Fixpoint states_after (l : t) (msgs : list string) : list t :=
  match msgs with
  | [] => []
  | m :: ms => let l' := append m l in l' :: states_after l' ms
  end.

(** Modelled from the spec: [clear()] of section 4.3. *)
Definition clear (l : t) : t := mk [] 0 (maxsize l).

(** [s] is a prefix of [txt]. *)
Fixpoint starts_with (s txt : string) : bool :=
  match s, txt with
  | EmptyString, _ => true
  | String _ _, EmptyString => false
  | String a s', String b txt' => Ascii.eqb a b && starts_with s' txt'
  end.

(** [strstr(txt, s) != NULL]. *)
Fixpoint contains (s txt : string) : bool :=
  starts_with s txt ||
  match txt with
  | EmptyString => false
  | String _ txt' => contains s txt'
  end.

(** Modelled from the spec: [find(substring)] of section 4.3, the
    [dprintf_find_string] declared on line 85. *)
Definition find (s : string) (l : t) : bool :=
  existsb (contains s) (entries l).

(** [s] occurs in [txt] as a substring. *)
Definition is_substring (s txt : string) : Prop :=
  exists before after : string,
    txt = String.append before (String.append s after).

(** [r] is a suffix of [msgs]. *)
Definition is_suffix (r msgs : list string) : Prop :=
  exists older, msgs = older ++ r.

(** [r] is the longest suffix of [msgs] whose total size is within [cap]:
    every suffix that fits is a suffix of [r]. *)
Definition maximal_fitting_suffix (cap : nat) (msgs r : list string) : Prop :=
  is_suffix r msgs /\
  total_size r <= cap /\
  forall r', is_suffix r' msgs -> total_size r' <= cap -> is_suffix r' r.

(** The running total of a log agrees with its entries. *)
Definition consistent (l : t) : Prop :=
  size l = total_size (entries l).

(** [l] is what a log of cap [cap] holds once it has received [hist]. *)
Definition retains (cap : nat) (hist : list string) (l : t) : Prop :=
  maxsize l = cap /\ consistent l /\
  maximal_fitting_suffix cap hist (entries l).

(** A text of [n] copies of the character [c]. *)
Fixpoint fill (c : ascii) (n : nat) : string :=
  match n with
  | O => EmptyString
  | S n' => String c (fill c n')
  end.

End Log.

(** ** Host capabilities and program state *)

(** What the environment provides: the values a variable argument list
    holds once evaluated, the format engine behind [vsnprintf], and the
    caller's own state, which argument expressions may read and write. *)
Class Host : Type := {
  va_list : Type;
  vsnprintf : string -> va_list -> string;
  World : Type
}.

Section Program.

Context {host : Host}.

(** The four [extern int] globals of lines 41-44, the log, the number of
    times the abort mechanism was entered, and the caller's state. *)
Record state : Type := mkState {
  zfs_flags : Z;
  zfs_recover : Z;
  zfs_free_leak_on_eio : Z;
  zfs_dbgmsg_enable : Z;
  zfs_dbgmsgs : Log.t;
  aborts : nat;
  world : World
}.

Definition with_log (f : Log.t -> Log.t) (s : state) : state :=
  mkState (zfs_flags s) (zfs_recover s) (zfs_free_leak_on_eio s)
          (zfs_dbgmsg_enable s) (f (zfs_dbgmsgs s)) (aborts s) (world s).

Definition with_flags (flags : Z) (s : state) : state :=
  mkState flags (zfs_recover s) (zfs_free_leak_on_eio s)
          (zfs_dbgmsg_enable s) (zfs_dbgmsgs s) (aborts s) (world s).

Definition with_world (f : World -> World) (s : state) : state :=
  mkState (zfs_flags s) (zfs_recover s) (zfs_free_leak_on_eio s)
          (zfs_dbgmsg_enable s) (zfs_dbgmsgs s) (aborts s) (f (world s)).

Definition enter_abort (s : state) : state :=
  mkState (zfs_flags s) (zfs_recover s) (zfs_free_leak_on_eio s)
          (zfs_dbgmsg_enable s) (zfs_dbgmsgs s) (S (aborts s)) (world s).

(** A statement either hands control back with a value, or ends in the
    abort mechanism and never comes back. *)
Inductive outcome (A : Type) : Type :=
| Returns (a : A) (s : state)
| Aborted (s : state).

Arguments Returns {A} a s.
Arguments Aborted {A} s.

Definition M (A : Type) : Type := state -> outcome A.

Definition ret {A} (a : A) : M A := fun s => Returns a s.

Definition bind {A B} (m : M A) (k : A -> M B) : M B :=
  fun s =>
    match m s with
    | Returns a s' => k a s'
    | Aborted s' => Aborted s'
    end.

Definition final_state {A} (o : outcome A) : state :=
  match o with
  | Returns _ s => s
  | Aborted s => s
  end.

Definition returned {A} (o : outcome A) : bool :=
  match o with
  | Returns _ _ => true
  | Aborted _ => false
  end.

End Program.

Arguments Returns {host A} a s.
Arguments Aborted {host A} s.

Notation "x <- m ;; k" := (bind m (fun x => k))
  (at level 61, m at next level, right associativity).

(** ** Formatter shim and instrumentation entry points *)

Section EntryPoints.

Context {host : Host}.

(** [%d] of a line number. *)
Definition decimal (n : Z) : string := NilZero.string_of_int (Z.to_int n).

(** Modelled from the spec: the text [__dprintf] builds (its body is not in
    the header, lines 60-61 only declare it).  Section 4.2 fixes the line as
    "<file>:<function>:<line>: <formatted template>"; the template is
    formatted by the host. *)
Definition render (file func : string) (line : Z)
    (fmt : string) (args : va_list) : string :=
  (file ++ ":" ++ func ++ ":" ++ decimal line ++ ": "
     ++ vsnprintf fmt args)%string.

(** Modelled from the spec: [__zfs_dbgmsg(buf)] hands the text to the log's
    [append]. *)
Definition __zfs_dbgmsg (buf : string) : M unit :=
  fun s => Returns tt (with_log (Log.append buf) s).

(** Modelled from the spec: [__dprintf] renders and appends (section 2,
    control flow); [dprint] is the tag that tells a category trace from an
    unconditional record and does not change the line. *)
Definition __dprintf (dprint : bool) (file func : string) (line : Z)
    (fmt : string) (args : va_list) : M unit :=
  __zfs_dbgmsg (render file func line fmt args).

(** [__VA_ARGS__] at a call site: the expressions that produce the format
    and its arguments.  Evaluating them may change the state, or not come
    back at all. *)
Definition va_args : Type := M (string * va_list).

(** Lines 62-64:
    [if (zfs_dbgmsg_enable) __dprintf(B_FALSE, __FILE__, __func__, __LINE__, __VA_ARGS__)] *)
Definition zfs_dbgmsg (file func : string) (line : Z) (va : va_args)
  : M unit :=
  fun s =>
    if Flags.truthy (zfs_dbgmsg_enable s)
    then (a <- va ;; __dprintf false file func line (fst a) (snd a)) s
    else Returns tt s.

(** Lines 66-77: with [ZFS_DEBUG] defined,
    [if (zfs_flags & ZFS_DEBUG_DPRINTF) __dprintf(B_TRUE, __FILE__, __func__, __LINE__, __VA_ARGS__)];
    otherwise [((void)0)]. *)
Definition dprintf (ZFS_DEBUG : bool) (file func : string) (line : Z)
    (va : va_args) : M unit :=
  if ZFS_DEBUG then
    fun s =>
      if Flags.active (zfs_flags s) Flags.ZFS_DEBUG_DPRINTF
      then (a <- va ;; __dprintf true file func line (fst a) (snd a)) s
      else Returns tt s
  else ret tt.

(** Modelled from the spec: [zfs_panic_recover] (line 79 only declares it).
    Section 4.4: the description is rendered and appended; then, by the live
    value of [zfs_recover], control returns or the abort mechanism is
    entered.  It is a function, so its arguments arrive evaluated. *)
Definition zfs_panic_recover (fmt : string) (args : va_list) : M unit :=
  fun s =>
    let s' := with_log (Log.append (vsnprintf fmt args)) s in
    if Flags.truthy (zfs_recover s) then Returns tt s'
    else Aborted (enter_abort s').

(** Modelled from the spec: [dprintf_find_string] (line 85) is [find] on
    the log; it only reads. *)
Definition dprintf_find_string (s : string) : M bool :=
  fun st => Returns (Log.find s (zfs_dbgmsgs st)) st.

(** Modelled from the spec: [zfs_dbgmsg_init] and [zfs_dbgmsg_fini]
    (lines 81-82), section 4.5: reset to empty, and clear. *)
Definition zfs_dbgmsg_init (cap : nat) : M unit :=
  fun s => Returns tt (with_log (fun _ => Log.init cap) s).

Definition zfs_dbgmsg_fini : M unit :=
  fun s => Returns tt (with_log Log.clear s).

End EntryPoints.

(** ** A host to run the entry points on *)

Module Demo.

(** Arguments are integers, the format engine returns the template as it
    is, and the caller's state is a counter. *)
Definition test_host : Host :=
  {| va_list := list Z; vsnprintf := fun fmt _ => fmt; World := nat |}.

(** The state after [zfs_dbgmsg_init], with the given flag word, recovery
    flag, recording flag and log cap. *)
Definition boot (flags recover enable : Z) (cap : nat)
  : @state test_host :=
  @mkState test_host flags recover 0 enable (Log.init cap) 0%nat 0%nat.

(** [(fmt, n++)]-style arguments: evaluating them bumps the counter. *)
Definition counting_args (fmt : string) : @va_args test_host :=
  fun s => @Returns test_host _ (fmt, []) (@with_world test_host S s).

End Demo.

(** ** Writers running in parallel *)

Module Concurrent.

(** Modelled from the spec: section 5 has any number of threads append in
    parallel, and puts the log's collection and size counter under one
    critical section.  A writer is outside the critical section, or inside
    it with its entry still to add, or inside it evicting. *)
Inductive pc : Type :=
| Idle
| Adding (msg : string)
| Purging.

(** Modelled from the spec: a writer thread, with the entries it has still
    to append and where it stands. *)
Record thread : Type := mkThread {
  todo : list string;
  at_pc : pc
}.

(** Modelled from the spec: the threads, the lock of the critical section
    and the one log they share. *)
Record system : Type := mkSystem {
  threads : list thread;
  locked : bool;
  shared : Log.t
}.

(** What one step did to the log, when it did something: it added an
    entry, turned one down, or took the oldest out. *)
Inductive event : Type :=
| Added (msg : string)
| Rejected (msg : string)
| Evicted (msg : string).

(** Modelled from the spec: one step of one thread, any thread, inside
    and around the critical section of [append]: take the free lock for the
    next entry; reject the entry if it is larger than the cap, and release
    the lock; otherwise add the entry and its size; evict the oldest entry
    while the total is over the cap; release the lock once it is not (or
    nothing is left). *)
Inductive step : system -> option event -> system -> Prop :=
| step_enter (before after : list thread) (msg : string)
    (rest : list string) (log : Log.t) :
    step (mkSystem (before ++ mkThread (msg :: rest) Idle :: after) false log)
         None
         (mkSystem (before ++ mkThread rest (Adding msg) :: after) true log)
| step_reject (before after : list thread) (msg : string)
    (rest : list string) (lk : bool) (log : Log.t) :
    (Log.maxsize log < Log.entry_size msg)%nat ->
    step (mkSystem (before ++ mkThread rest (Adding msg) :: after) lk log)
         (Some (Rejected msg))
         (mkSystem (before ++ mkThread rest Idle :: after) false log)
| step_add (before after : list thread) (msg : string)
    (rest : list string) (lk : bool) (log : Log.t) :
    (Log.entry_size msg <= Log.maxsize log)%nat ->
    step (mkSystem (before ++ mkThread rest (Adding msg) :: after) lk log)
         (Some (Added msg))
         (mkSystem (before ++ mkThread rest Purging :: after) lk
                   (Log.add msg log))
| step_evict (before after : list thread) (rest : list string) (lk : bool)
    (oldest : string) (es : list string) (sz cap : nat) :
    (cap < sz)%nat ->
    step (mkSystem (before ++ mkThread rest Purging :: after) lk
                   (Log.mk (oldest :: es) sz cap))
         (Some (Evicted oldest))
         (mkSystem (before ++ mkThread rest Purging :: after) lk
                   (Log.mk es (sz - Log.entry_size oldest) cap))
| step_leave (before after : list thread) (rest : list string) (lk : bool)
    (log : Log.t) :
    (Log.size log <= Log.maxsize log)%nat \/ Log.entries log = [] ->
    step (mkSystem (before ++ mkThread rest Purging :: after) lk log)
         None
         (mkSystem (before ++ mkThread rest Idle :: after) false log).

Definition emitted (ev : option event) : list event :=
  match ev with
  | Some e => [e]
  | None => []
  end.

(** An execution, with what was done to the log, in order. *)
Inductive run : system -> list event -> system -> Prop :=
| run_done (st : system) : run st [] st
| run_step (st st' st'' : system) (ev : option event)
    (evs : list event) :
    step st ev st' -> run st' evs st'' ->
    run st (emitted ev ++ evs) st''.

(** The entries that were handed to the log, added to it, and evicted from
    it, each in the order it happened. *)
Definition offered (evs : list event) : list string :=
  flat_map (fun e => match e with
                     | Added m | Rejected m => [m]
                     | Evicted _ => []
                     end) evs.



Definition spawn (msgs : list string) : thread := mkThread msgs Idle.

(** After [init]: nobody holds the lock, the log is empty, and thread [i]
    is about to append the entries of [work]'s [i]-th list. *)
Definition start (cap : nat) (work : list (list string)) : system :=
  mkSystem (map spawn work) false (Log.init cap).

(** Every thread has appended all its entries and left. *)
Definition finished (st : system) : Prop :=
  Forall (fun t => t = mkThread [] Idle) (threads st).








End Concurrent.

(** ** Flag words as sets of categories *)

Module FlagWord.

(** [ZFS_DEBUG_DPRINTF | ZFS_DEBUG_DBUF_VERIFY | ... | ZFS_DEBUG_TRIM]: every
    bit that lines 46-57 give to a category. *)
Definition all_categories : Z := fold_right Z.lor 0 Flags.categories.

(** The word a caller builds by or-ing the masks of [cs] together. *)
Definition word_of (cs : list Z) : Z := fold_right Z.lor 0 cs.

(** The categories of the header that test as active in [flags], in the
    order of the header. *)
Definition active_categories (flags : Z) : list Z :=
  filter (Flags.active flags) Flags.categories.

(** [zfs_flags] is an [int] (line 41): its 32 bits read as unsigned. *)
Definition as_unsigned (v : Z) : Z := v mod 2 ^ 32.

End FlagWord.

(** ** The macros at a call site *)

Module CallSite.

(** The conditions a statement can test: one of the caller's own, or one of
    the two the macros bring in, [zfs_dbgmsg_enable] (line 63) and
    [zfs_flags & ZFS_DEBUG_DPRINTF] (line 73). *)
Inductive cond : Type :=
| C_user (id : nat)
| C_dbgmsg_enable
| C_dprintf_bit.

(** The expressions a statement can evaluate: one of the caller's own, the
    call [__dprintf(tag, __FILE__, __func__, __LINE__, __VA_ARGS__)] of
    lines 64 and 74, or the [((void)0)] of line 76. *)
Inductive expr : Type :=
| E_user (id : nat)
| E_dprintf (tag : bool)
| E_void0.

(** The tokens of a statement as the caller writes it; a macro use is one
    token until it is expanded. *)
Inductive token : Type :=
| T_if (c : cond)
| T_else
| T_expr (e : expr)
| T_semi
| T_zfs_dbgmsg
| T_dprintf.

(** The replacement lists of lines 62-64 and 72-76.  Neither ends in a
    semicolon, and neither is wrapped in braces or [do { } while (0)]. *)
Definition expand_token (ZFS_DEBUG : bool) (t : token) : list token :=
  match t with
  | T_zfs_dbgmsg => [T_if C_dbgmsg_enable; T_expr (E_dprintf false)]
  | T_dprintf =>
      if ZFS_DEBUG then [T_if C_dprintf_bit; T_expr (E_dprintf true)]
      else [T_expr E_void0]
  | _ => [t]
  end.

Definition expand (ZFS_DEBUG : bool) (ts : list token) : list token :=
  flat_map (expand_token ZFS_DEBUG) ts.

(** Statements of C, as far as the macros need them: an expression
    statement, and [if] with or without [else]. *)
Inductive stmt : Type :=
| S_expr (e : expr)
| S_if (c : cond) (then_ : stmt)
| S_if_else (c : cond) (then_ else_ : stmt).

(** The C grammar for these statements: an [else] goes with the nearest
    [if] that can take it.  [fuel] bounds the nesting depth. *)
Fixpoint parse_stmt (fuel : nat) (ts : list token)
  : option (stmt * list token) :=
  match fuel with
  | O => None
  | S fuel' =>
      match ts with
      | T_expr e :: T_semi :: rest => Some (S_expr e, rest)
      | T_if c :: rest =>
          match parse_stmt fuel' rest with
          | Some (s1, T_else :: rest1) =>
              match parse_stmt fuel' rest1 with
              | Some (s2, rest2) => Some (S_if_else c s1 s2, rest2)
              | None => None
              end
          | Some (s1, rest1) => Some (S_if c s1, rest1)
          | None => None
          end
      | _ => None
      end
  end.

(** The expressions a statement evaluates, in order, when the conditions
    have the truth values of [env]. *)
Fixpoint exec (env : cond -> bool) (s : stmt) : list expr :=
  match s with
  | S_expr e => [e]
  | S_if c s1 => if env c then exec env s1 else []
  | S_if_else c s1 s2 => if env c then exec env s1 else exec env s2
  end.

(** The next token is not [else]. *)
Definition no_else_next (ts : list token) : Prop :=
  match ts with
  | T_else :: _ => False
  | _ => True
  end.

End CallSite.

(** ** Bit-level facts about single-bit masks *)

Section SingleBit.

Import Flags.

Lemma land_single_bit (f k : Z) :
  0 <= k -> Z.land f (Z.shiftl 1 k) = if Z.testbit f k then 2 ^ k else 0.
Proof.
  intros Hk. rewrite Z.shiftl_1_l.
  apply Z.bits_inj'. intros n Hn.
  rewrite Z.land_spec, Z.pow2_bits_eqb by assumption.
  destruct (Z.eqb_spec k n) as [->|Hne].
  - rewrite andb_true_r. destruct (Z.testbit f n) eqn:E.
    + now rewrite Z.pow2_bits_true.
    + now rewrite Z.bits_0.
  - rewrite andb_false_r. destruct (Z.testbit f k).
    + rewrite Z.pow2_bits_false; [reflexivity | congruence].
    + now rewrite Z.bits_0.
Qed.

Lemma active_single_bit (f k : Z) :
  0 <= k -> active f (Z.shiftl 1 k) = Z.testbit f k.
Proof.
  intros Hk. unfold active, truthy. rewrite land_single_bit by assumption.
  destruct (Z.testbit f k); [|reflexivity].
  assert (0 < 2 ^ k) by (apply Z.pow_pos_nonneg; lia).
  destruct (Z.eqb_spec (2 ^ k) 0); [lia | reflexivity].
Qed.

Lemma active_set_other (f j k : Z) :
  0 <= j -> 0 <= k -> j <> k ->
  active (set_category f (Z.shiftl 1 j)) (Z.shiftl 1 k) =
  active f (Z.shiftl 1 k).
Proof.
  intros Hj Hk Hne. rewrite !active_single_bit by assumption.
  unfold set_category. rewrite Z.lor_spec, Z.shiftl_1_l.
  rewrite Z.pow2_bits_false by assumption. apply orb_false_r.
Qed.

Lemma active_clear_other (f j k : Z) :
  0 <= j -> 0 <= k -> j <> k ->
  active (clear_category f (Z.shiftl 1 j)) (Z.shiftl 1 k) =
  active f (Z.shiftl 1 k).
Proof.
  intros Hj Hk Hne. rewrite !active_single_bit by assumption.
  unfold clear_category.
  rewrite Z.land_spec, Z.lnot_spec, Z.shiftl_1_l by assumption.
  rewrite Z.pow2_bits_false by assumption. apply andb_true_r.
Qed.

Lemma categories_are_shifts : categories = map (Z.shiftl 1) category_bits.
Proof. reflexivity. Qed.

Lemma category_bits_range (k : Z) :
  In k category_bits -> 0 <= k <= 11 /\ k <> 5.
Proof.
  unfold category_bits. simpl. intros H.
  repeat (destruct H as [<-|H]; [lia|]). contradiction.
Qed.

Lemma in_categories (c : Z) :
  In c categories <-> exists k, In k category_bits /\ c = Z.shiftl 1 k.
Proof.
  rewrite categories_are_shifts, in_map_iff. split.
  - intros (k & <- & Hk). eauto.
  - intros (k & Hk & ->). eauto.
Qed.

End SingleBit.

(** ** The log: sizes, suffixes and eviction *)

Section LogFacts.

Import Log.
Local Open Scope nat_scope.

Lemma total_size_app (a b : list string) :
  total_size (a ++ b) = total_size a + total_size b.
Proof.
  induction a as [|e a IH]; simpl; [reflexivity|].
  rewrite IH. lia.
Qed.

Lemma is_suffix_refl (r : list string) : is_suffix r r.
Proof. exists []. reflexivity. Qed.

Lemma is_suffix_nil (msgs : list string) : is_suffix [] msgs.
Proof. exists msgs. now rewrite app_nil_r. Qed.

Lemma is_suffix_trans (a b c : list string) :
  is_suffix a b -> is_suffix b c -> is_suffix a c.
Proof.
  intros [x ->] [y ->]. exists (y ++ x). now rewrite app_assoc.
Qed.

Lemma is_suffix_cons_inv (r : list string) (e : string) (rest : list string) :
  is_suffix r (e :: rest) -> r = e :: rest \/ is_suffix r rest.
Proof.
  intros [older H]. destruct older as [|o older]; simpl in H.
  - left. congruence.
  - right. exists older. congruence.
Qed.

Lemma snoc_cases (r : list string) :
  r = [] \/ exists r0 x, r = r0 ++ [x].
Proof.
  induction r as [|x r0 _] using rev_ind; [now left|].
  right. now exists r0, x.
Qed.

Lemma is_suffix_snoc_inv (r hist : list string) (m : string) :
  is_suffix r (hist ++ [m]) ->
  r = [] \/ exists r0, r = r0 ++ [m] /\ is_suffix r0 hist.
Proof.
  intros [older H].
  destruct (snoc_cases r) as [->|(r0 & x & ->)]; [now left|].
  right. rewrite app_assoc in H.
  apply app_inj_tail in H. destruct H as [H ->].
  exists r0. split; [reflexivity|]. now exists older.
Qed.

Lemma is_suffix_snoc (r hist : list string) (m : string) :
  is_suffix r hist -> is_suffix (r ++ [m]) (hist ++ [m]).
Proof. intros [older ->]. exists older. now rewrite app_assoc. Qed.

(** What the eviction loop leaves, when the running total is right on
    entry: the longest suffix that fits, with the total kept in step. *)
Lemma purge_spec (cap : nat) (es : list string) :
  forall sz, sz = total_size es ->
    snd (purge cap es sz) = total_size (fst (purge cap es sz)) /\
    maximal_fitting_suffix cap es (fst (purge cap es sz)).
Proof.
  induction es as [|e rest IH]; intros sz Hsz; simpl.
  - subst sz. split; [reflexivity|]. split; [apply is_suffix_refl|].
    split; [simpl; lia|]. intros r' Hr' _. exact Hr'.
  - destruct (Nat.ltb_spec cap sz) as [Hover|Hfits].
    + destruct (IH (sz - entry_size e)) as (Ht & Hs & Hc & Hmax).
      { subst sz. simpl. lia. }
      split; [exact Ht|]. split.
      { apply is_suffix_trans with rest; [exact Hs|]. now exists [e]. }
      split; [exact Hc|].
      intros r' Hr' Hfit.
      apply is_suffix_cons_inv in Hr'. destruct Hr' as [->|Hr'].
      * subst sz. lia.
      * now apply Hmax.
    + simpl. split; [exact Hsz|]. split; [apply is_suffix_refl|].
      split; [lia|]. intros r' Hr' _. exact Hr'.
Qed.

Lemma evict_add_fields (m : string) (l : Log.t) :
  entries (evict (add m l)) =
    fst (purge (maxsize l) (entries l ++ [m]) (size l + entry_size m)) /\
  size (evict (add m l)) =
    snd (purge (maxsize l) (entries l ++ [m]) (size l + entry_size m)) /\
  maxsize (evict (add m l)) = maxsize l.
Proof.
  unfold evict, add. simpl.
  destruct (purge (maxsize l) (entries l ++ [m]) (size l + entry_size m)).
  now simpl.
Qed.

Lemma append_accepts (m : string) (l : Log.t) :
  entry_size m <= maxsize l -> append m l = evict (add m l).
Proof.
  intros H. unfold append, oversized.
  destruct (Nat.ltb_spec (maxsize l) (entry_size m)); [lia|reflexivity].
Qed.

Lemma append_rejects (m : string) (l : Log.t) :
  maxsize l < entry_size m -> append m l = l.
Proof.
  intros H. unfold append, oversized.
  destruct (Nat.ltb_spec (maxsize l) (entry_size m)); [reflexivity|lia].
Qed.

Lemma append_maxsize (m : string) (l : Log.t) :
  maxsize (append m l) = maxsize l.
Proof.
  unfold append. destruct (oversized m l); [reflexivity|].
  apply evict_add_fields.
Qed.

Lemma accepted_one_fits (cap : nat) (m : string) :
  entry_size m <= cap -> accepted cap [m] = [m].
Proof.
  intros H. unfold accepted. simpl.
  destruct (Nat.leb_spec (entry_size m) cap); [reflexivity|lia].
Qed.

Lemma accepted_one_oversized (cap : nat) (m : string) :
  cap < entry_size m -> accepted cap [m] = [].
Proof.
  intros H. unfold accepted. simpl.
  destruct (Nat.leb_spec (entry_size m) cap); [lia|reflexivity].
Qed.

Lemma accepted_app (cap : nat) (a b : list string) :
  accepted cap (a ++ b) = accepted cap a ++ accepted cap b.
Proof. apply filter_app. Qed.


Lemma append_total_entry (m : string) (l : Log.t) :
  consistent l ->
  size l + entry_size m = total_size (entries l ++ [m]).
Proof.
  unfold consistent. intros ->. rewrite total_size_app. simpl. lia.
Qed.

Lemma append_consistent (m : string) (l : Log.t) :
  consistent l -> size l <= maxsize l ->
  consistent (append m l) /\ size (append m l) <= maxsize l.
Proof.
  intros Hl Hb.
  destruct (Nat.le_gt_cases (entry_size m) (maxsize l)) as [Hfit|Hbig].
  - rewrite (append_accepts m l Hfit).
    destruct (evict_add_fields m l) as (He & Hs & _).
    destruct (purge_spec (maxsize l) (entries l ++ [m]) _
                (append_total_entry m l Hl)) as (Ht & _ & Hc & _).
    unfold consistent. rewrite Hs, He. split; [exact Ht|].
    rewrite Ht. exact Hc.
  - rewrite (append_rejects m l Hbig). now split.
Qed.

Lemma retains_init (cap : nat) : retains cap [] (init cap).
Proof.
  split; [reflexivity|]. split; [reflexivity|].
  split; [apply is_suffix_refl|]. split; [simpl; lia|].
  intros r' Hr' _. exact Hr'.
Qed.

Lemma retains_bounded (cap : nat) (hist : list string) (l : Log.t) :
  retains cap hist l -> size l <= maxsize l.
Proof.
  intros (Hcap & Hl & _ & Hfit & _). rewrite Hl, Hcap. exact Hfit.
Qed.

(** An accepted entry joins the history the log is the longest fitting
    suffix of; a rejected one does not. *)
Lemma retains_append (cap : nat) (hist : list string) (m : string)
    (l : Log.t) :
  retains cap hist l ->
  retains cap (hist ++ accepted cap [m]) (append m l).
Proof.
  intros Hret. pose proof (retains_bounded _ _ _ Hret) as Hb.
  destruct Hret as (Hcap & Hl & Hs & Hfit0 & Hmax).
  destruct (Nat.le_gt_cases (entry_size m) cap) as [Hfit|Hbig].
  - rewrite (accepted_one_fits cap m Hfit).
    assert (Hfit' : entry_size m <= maxsize l) by now rewrite Hcap.
    destruct (append_consistent m l Hl Hb) as [Hc' _].
    rewrite (append_accepts m l Hfit') in *.
    destruct (evict_add_fields m l) as (He & _ & Hm).
    destruct (purge_spec (maxsize l) (entries l ++ [m]) _
                (append_total_entry m l Hl)) as (_ & Hs' & Hc'' & Hmax').
    rewrite <- He in Hs', Hc'', Hmax'. rewrite Hcap in Hc'', Hmax'.
    split; [congruence|]. split; [exact Hc'|].
    split.
    { apply is_suffix_trans with (entries l ++ [m]); [exact Hs'|].
      now apply is_suffix_snoc. }
    split; [exact Hc''|].
    intros r' Hr' Hfitr. apply Hmax'; [|exact Hfitr].
    apply is_suffix_snoc_inv in Hr'.
    destruct Hr' as [->|(r0 & -> & Hr0)]; [apply is_suffix_nil|].
    apply is_suffix_snoc. apply Hmax; [exact Hr0|].
    rewrite total_size_app in Hfitr. lia.
  - rewrite (accepted_one_oversized cap m Hbig), app_nil_r.
    rewrite append_rejects by now rewrite Hcap.
    repeat split; assumption.
Qed.

Lemma retains_appends (cap : nat) (msgs : list string) :
  forall hist l,
    retains cap hist l ->
    retains cap (hist ++ accepted cap msgs) (appends msgs l).
Proof.
  induction msgs as [|m msgs IH]; intros hist l Hl.
  - simpl. now rewrite app_nil_r.
  - change (appends (m :: msgs) l) with (appends msgs (append m l)).
    change (accepted cap (m :: msgs)) with (accepted cap ([m] ++ msgs)).
    rewrite accepted_app, app_assoc.
    apply IH. now apply retains_append.
Qed.

Lemma states_after_bounded (msgs : list string) :
  forall l, consistent l -> size l <= maxsize l ->
    Forall (fun l' => size l' <= maxsize l' /\ maxsize l' = maxsize l /\
                      consistent l')
           (states_after l msgs).
Proof.
  induction msgs as [|m msgs IH]; intros l Hl Hb; simpl; constructor.
  - destruct (append_consistent m l Hl Hb) as [Hc Hb'].
    rewrite append_maxsize. auto.
  - destruct (append_consistent m l Hl Hb) as [Hc Hb'].
    rewrite <- (append_maxsize m l) in Hb' |- *. now apply IH.
Qed.


End LogFacts.

(** ** Substring search *)

Section Search.

Import Log.
Local Open Scope string_scope.

Lemma starts_with_spec (s : string) :
  forall txt, starts_with s txt = true <-> exists after, txt = s ++ after.
Proof.
  induction s as [|a s IH]; intros txt; simpl.
  - split; [intros _; now exists txt | reflexivity].
  - destruct txt as [|b txt].
    + split; [discriminate | intros [after H]; discriminate].
    + rewrite andb_true_iff, Ascii.eqb_eq, IH. split.
      * intros [-> [after ->]]. now exists after.
      * intros [after H]. injection H as -> ->. split; [reflexivity|].
        now exists after.
Qed.

Lemma contains_spec (s : string) :
  forall txt, contains s txt = true <-> is_substring s txt.
Proof.
  unfold is_substring.
  induction txt as [|c txt IH]; simpl.
  - rewrite orb_false_r, starts_with_spec. split.
    + intros [after H]. now exists "", after.
    + intros (before & after & H). destruct before; [|discriminate].
      now exists after.
  - rewrite orb_true_iff, IH.
    change (match s with
            | "" => true
            | String a s' => Ascii.eqb a c && starts_with s' txt
            end) with (starts_with s (String c txt)).
    rewrite starts_with_spec. split.
    + intros [[after H]|(before & after & H)].
      * now exists "", after.
      * exists (String c before), after. simpl. now rewrite H.
    + intros (before & after & H). destruct before as [|b before].
      * left. now exists after.
      * right. simpl in H. injection H as _ ->. now exists before, after.
Qed.

Lemma find_spec (s : string) (l : Log.t) :
  find s l = true <-> exists e, In e (entries l) /\ is_substring s e.
Proof.
  unfold find. rewrite existsb_exists. split.
  - intros (e & He & Hc). exists e. now rewrite <- contains_spec.
  - intros (e & He & Hc). exists e. now rewrite contains_spec.
Qed.

End Search.

(** ** Properties of the bounded log *)

Section LogClaims.

Import Log.
Local Open Scope nat_scope.

(** C1: for every sequence of appends to a log created with cap [cap], the
    log after each append (its eviction included) has a running total that is
    the byte size of what it holds and is at most [cap]; so has the log after
    the whole sequence. *)
Theorem log_total_within_cap (cap : nat) (msgs : list string) :
  Forall (fun l => size l <= cap /\ maxsize l = cap /\
                   size l = total_size (entries l))
         (states_after (init cap) msgs) /\
  size (appends msgs (init cap)) <= cap.
Proof.
  split.
  - eapply Forall_impl;
      [|apply (states_after_bounded msgs (init cap));
        [reflexivity|simpl; lia]].
    simpl. intros l (Hb & Hm & Hc). rewrite Hm in Hb. auto.
  - destruct (retains_appends cap msgs [] (init cap) (retains_init cap))
      as (Hm & Hc & _ & Hfit & _).
    rewrite Hc. exact Hfit.
Qed.




End LogClaims.

(** ** Properties of the category masks *)

Section FlagClaims.

Import Flags.

(** C10: the header defines eleven category masks; they are pairwise
    distinct, each is the single bit [1 << k] for some [k] from 0 to 11 other
    than 5 (with [1 << 0] and [1 << 11] both in use); setting or clearing one
    category in a flag word leaves the test of every other category as it
    was; and the word that holds only bit [1 << 5] activates no category. *)
Theorem categories_independent_single_bits :
  List.length categories = 11%nat /\
  NoDup categories /\
  (forall c, In c categories ->
     exists k, 0 <= k <= 11 /\ k <> 5 /\ c = Z.shiftl 1 k /\ c = 2 ^ k) /\
  In (Z.shiftl 1 0) categories /\
  In (Z.shiftl 1 11) categories /\
  (forall flags c d,
     In c categories -> In d categories -> c <> d ->
     active (set_category flags c) d = active flags d /\
     active (clear_category flags c) d = active flags d) /\
  ~ In (Z.shiftl 1 5) categories /\
  (forall c, In c categories -> active (Z.shiftl 1 5) c = false).
Proof.
  split; [reflexivity|].
  split.
  { cbv. repeat (constructor; [simpl; intuition discriminate|]).
    constructor. }
  split.
  { intros c Hc. apply in_categories in Hc. destruct Hc as (k & Hk & ->).
    exists k. destruct (category_bits_range k Hk) as [Hr H5].
    repeat split; try lia. apply Z.shiftl_1_l. }
  split; [simpl; auto|].
  split; [simpl; auto 15|].
  split.
  { intros flags c d Hc Hd Hne.
    apply in_categories in Hc. destruct Hc as (j & Hj & ->).
    apply in_categories in Hd. destruct Hd as (k & Hk & ->).
    destruct (category_bits_range j Hj) as [Hjr _].
    destruct (category_bits_range k Hk) as [Hkr _].
    assert (j <> k) by congruence.
    split; [apply active_set_other | apply active_clear_other]; lia. }
  split.
  { cbv. intuition discriminate. }
  intros c Hc. apply in_categories in Hc. destruct Hc as (k & Hk & ->).
  destruct (category_bits_range k Hk) as [Hr H5].
  rewrite active_single_bit by lia.
  rewrite Z.shiftl_1_l. apply Z.pow2_bits_false. congruence.
Qed.

Lemma categories_independent_single_bits_witness :
  active (set_category 0 ZFS_DEBUG_TRIM) ZFS_DEBUG_DPRINTF = active 0 ZFS_DEBUG_DPRINTF /\
  active (clear_category 4095 ZFS_DEBUG_TRIM) ZFS_DEBUG_DPRINTF =
    active 4095 ZFS_DEBUG_DPRINTF /\
  active (Z.shiftl 1 5) ZFS_DEBUG_ZIO_FREE = false.
Proof.
  destruct categories_independent_single_bits
    as (_ & _ & _ & _ & _ & Hind & _ & Hfive).
  assert (Ht : In ZFS_DEBUG_TRIM categories) by (simpl; auto 15).
  assert (Hd : In ZFS_DEBUG_DPRINTF categories) by (simpl; auto).
  assert (Hz : In ZFS_DEBUG_ZIO_FREE categories) by (simpl; auto 15).
  assert (Hne : ZFS_DEBUG_TRIM <> ZFS_DEBUG_DPRINTF) by (cbv; discriminate).
  split; [exact (proj1 (Hind 0 _ _ Ht Hd Hne))|].
  split; [exact (proj2 (Hind 4095 _ _ Ht Hd Hne))|].
  exact (Hfive _ Hz).
Defined.

End FlagClaims.

(** ** Properties of the entry points *)

Section EntryClaims.

Context {host : Host}.

Import Flags.

Lemma truthy_true (v : Z) : v <> 0 -> truthy v = true.
Proof.
  intros H. unfold truthy. destruct (Z.eqb_spec v 0); [contradiction|reflexivity].
Qed.

Lemma truthy_false (v : Z) : v = 0 -> truthy v = false.
Proof. intros ->. reflexivity. Qed.

Lemma truthy_true_inv (v : Z) : truthy v = true -> v <> 0.
Proof.
  unfold truthy. destruct (Z.eqb_spec v 0); [discriminate|auto].
Qed.

(** An entry that fits under the cap on its own is the newest entry of the
    log right after its append. *)
Lemma append_newest (m : string) (l : Log.t) :
  Log.consistent l -> (Log.entry_size m <= Log.maxsize l)%nat ->
  exists older, Log.entries (Log.append m l) = older ++ [m].
Proof.
  intros Hl Hfit. rewrite (append_accepts m l Hfit).
  destruct (evict_add_fields m l) as (He & _ & _).
  destruct (purge_spec (Log.maxsize l) (Log.entries l ++ [m]) _
              (append_total_entry m l Hl)) as (_ & _ & _ & Hmax).
  rewrite <- He in Hmax. apply (Hmax [m]).
  - now exists (Log.entries l).
  - simpl. lia.
Qed.

(** C3: whatever the build and whatever the log holds, a [dprintf] whose
    category bit is clear in [zfs_flags] hands back the state as it found it,
    for every argument expression: nothing is appended and no effect of
    evaluating the arguments takes place.  A [dprintf] that does leave a
    trace was compiled with [ZFS_DEBUG] and ran with the bit set, and then it
    evaluates its arguments once and passes them to [__dprintf]. *)
Theorem dprintf_clear_bit_does_nothing (ZFS_DEBUG : bool)
    (file func : string) (line : Z) (va : va_args) (s : state) :
  (Z.land (zfs_flags s) ZFS_DEBUG_DPRINTF = 0 ->
   dprintf ZFS_DEBUG file func line va s = Returns tt s) /\
  (dprintf ZFS_DEBUG file func line va s <> Returns tt s ->
   Z.land (zfs_flags s) ZFS_DEBUG_DPRINTF <> 0 /\ ZFS_DEBUG = true) /\
  (ZFS_DEBUG = true -> Z.land (zfs_flags s) ZFS_DEBUG_DPRINTF <> 0 ->
   dprintf ZFS_DEBUG file func line va s =
   (a <- va ;; __dprintf true file func line (fst a) (snd a)) s).
Proof.
  split; [|split].
  - intros Hclear. unfold dprintf, active. destruct ZFS_DEBUG; [|reflexivity].
    now rewrite (truthy_false _ Hclear).
  - intros Hdiff. unfold dprintf, active in Hdiff. destruct ZFS_DEBUG.
    + split; [|reflexivity].
      destruct (truthy (Z.land (zfs_flags s) ZFS_DEBUG_DPRINTF)) eqn:E.
      * now apply truthy_true_inv.
      * now contradiction Hdiff.
    + now contradiction Hdiff.
  - intros -> Hset. unfold dprintf, active. now rewrite (truthy_true _ Hset).
Qed.

(** C4: [zfs_dbgmsg] evaluates its arguments and has [__dprintf] render and
    append them when [zfs_dbgmsg_enable] is non-zero, and does nothing when
    it is zero; the log it leaves is the same for every value of
    [zfs_flags]. *)
Theorem zfs_dbgmsg_gated_by_enable_only (file func : string) (line : Z)
    (s : state) :
  (forall va : va_args,
     zfs_dbgmsg_enable s <> 0 ->
     zfs_dbgmsg file func line va s =
     (a <- va ;; __dprintf false file func line (fst a) (snd a)) s) /\
  (forall va : va_args,
     zfs_dbgmsg_enable s = 0 ->
     zfs_dbgmsg file func line va s = Returns tt s) /\
  (forall (fmt : string) (args : va_list) (flags : Z),
     zfs_dbgmsg file func line (ret (fmt, args)) (with_flags flags s) =
     Returns tt
       (with_flags flags
          (if truthy (zfs_dbgmsg_enable s)
           then with_log (Log.append (render file func line fmt args)) s
           else s))).
Proof.
  split; [|split].
  - intros va Hon. unfold zfs_dbgmsg. now rewrite (truthy_true _ Hon).
  - intros va Hoff. unfold zfs_dbgmsg. now rewrite (truthy_false _ Hoff).
  - intros fmt args flags. unfold zfs_dbgmsg. simpl.
    destruct (truthy (zfs_dbgmsg_enable s)); reflexivity.
Qed.

(** C5: [zfs_panic_recover] always appends the rendered description.  With
    [zfs_recover] non-zero it then returns, and the abort mechanism has not
    been entered; with [zfs_recover] zero it does not return, and the abort
    mechanism has been entered exactly once more than before. *)
Theorem zfs_panic_recover_policy (fmt : string) (args : va_list)
    (s : state) :
  zfs_dbgmsgs (final_state (zfs_panic_recover fmt args s)) =
    Log.append (vsnprintf fmt args) (zfs_dbgmsgs s) /\
  (zfs_recover s <> 0 ->
   zfs_panic_recover fmt args s =
     Returns tt (with_log (Log.append (vsnprintf fmt args)) s) /\
   aborts (final_state (zfs_panic_recover fmt args s)) = aborts s) /\
  (zfs_recover s = 0 ->
   zfs_panic_recover fmt args s =
     Aborted (enter_abort (with_log (Log.append (vsnprintf fmt args)) s)) /\
   returned (zfs_panic_recover fmt args s) = false /\
   aborts (final_state (zfs_panic_recover fmt args s)) = S (aborts s)).
Proof.
  unfold zfs_panic_recover. split; [|split].
  - destruct (truthy (zfs_recover s)); reflexivity.
  - intros Hon. rewrite (truthy_true _ Hon). now split.
  - intros Hoff. rewrite (truthy_false _ Hoff). now repeat split.
Qed.

(** C6: [find s] ([dprintf_find_string]) answers true exactly when some
    retained entry has [s] as a substring, leaving the state as it was, and
    answers false on the log just cleared. *)
Theorem find_iff_retained_substring (s : string) (st : state) :
  dprintf_find_string s st = Returns (Log.find s (zfs_dbgmsgs st)) st /\
  (Log.find s (zfs_dbgmsgs st) = true <->
   exists e, In e (Log.entries (zfs_dbgmsgs st)) /\ Log.is_substring s e) /\
  Log.find s (Log.clear (zfs_dbgmsgs st)) = false /\
  (_ <- zfs_dbgmsg_fini ;; dprintf_find_string s) st =
    Returns false (with_log Log.clear st).
Proof.
  split; [reflexivity|]. split; [apply find_spec|].
  split; reflexivity.
Qed.

(** C7: for every location, template and arguments, [__dprintf] appends the
    line made of the file, a colon, the function, a colon, the line number in
    decimal, a colon and a space, and the formatted template, whatever its
    tag; when that line fits under the cap of a consistent log, it is the
    newest entry afterwards. *)
Theorem dprintf_line_format (dprint : bool) (file func : string) (line : Z)
    (fmt : string) (args : va_list) (s : state) :
  render file func line fmt args =
    (file ++ ":" ++ func ++ ":" ++ decimal line ++ ": "
       ++ vsnprintf fmt args)%string /\
  __dprintf dprint file func line fmt args s =
    Returns tt (with_log (Log.append (render file func line fmt args)) s) /\
  (Log.consistent (zfs_dbgmsgs s) ->
   (Log.entry_size (render file func line fmt args)
      <= Log.maxsize (zfs_dbgmsgs s))%nat ->
   exists older,
     Log.entries
       (zfs_dbgmsgs (final_state (__dprintf dprint file func line fmt args s)))
     = older ++ [render file func line fmt args]).
Proof.
  split; [reflexivity|]. split; [reflexivity|].
  intros Hl Hfit. simpl. now apply append_newest.
Qed.

(** C9: compiled without [ZFS_DEBUG], [dprintf] hands back the state as it
    found it for every flag word and every argument expression; compiled
    with it, the call is decided by the category bit. *)
Theorem dprintf_without_ZFS_DEBUG_is_noop (file func : string) (line : Z)
    (va : va_args) (s : state) :
  dprintf false file func line va s = Returns tt s /\
  (forall flags, dprintf false file func line va (with_flags flags s) =
                 Returns tt (with_flags flags s)) /\
  dprintf true file func line va s =
    if active (zfs_flags s) ZFS_DEBUG_DPRINTF
    then (a <- va ;; __dprintf true file func line (fst a) (snd a)) s
    else Returns tt s.
Proof. repeat split. Qed.

End EntryClaims.

(** ** Properties of parallel writers *)

Section ConcurrentClaims.

Import Concurrent.
Local Open Scope nat_scope.

Lemma evict_step (oldest : string) (es : list string) (sz cap : nat) :
  cap < sz ->
  Log.evict (Log.mk (oldest :: es) sz cap) =
  Log.evict (Log.mk es (sz - Log.entry_size oldest) cap).
Proof.
  intros Hover. unfold Log.evict. simpl.
  destruct (Nat.ltb_spec cap sz); [reflexivity|lia].
Qed.

Lemma evict_done (l : Log.t) :
  Log.size l <= Log.maxsize l \/ Log.entries l = [] -> Log.evict l = l.
Proof.
  destruct l as [es sz cap]. unfold Log.evict. simpl.
  intros [Hfit| ->]; [|reflexivity].
  destruct es as [|e es]; [reflexivity|]. simpl.
  destruct (Nat.ltb_spec cap sz); [lia|reflexivity].
Qed.

Lemma appends_app (a b : list string) (l : Log.t) :
  Log.appends (a ++ b) l = Log.appends b (Log.appends a l).
Proof. unfold Log.appends. apply fold_left_app. Qed.


Lemma offered_app (a b : list event) :
  offered (a ++ b) = offered a ++ offered b.
Proof. apply flat_map_app. Qed.

















Lemma run_silent (st st' st'' : system) (evs : list event) :
  step st None st' -> run st' evs st'' -> run st evs st''.
Proof. intros Hs Hr. exact (run_step _ _ _ None evs Hs Hr). Qed.

Lemma run_event (st st' st'' : system) (e : event) (evs : list event) :
  step st (Some e) st' -> run st' evs st'' -> run st (e :: evs) st''.
Proof. intros Hs Hr. exact (run_step _ _ _ (Some e) evs Hs Hr). Qed.

Lemma run_trans (a b c : system) (t1 t2 : list event) :
  run a t1 b -> run b t2 c -> run a (t1 ++ t2) c.
Proof.
  induction 1 as [|st st' st'' ev evs Hstep Hrun IH]; intros H2;
    [exact H2|].
  rewrite <- app_assoc. econstructor; [exact Hstep|now apply IH].
Qed.

(** Progress: a thread inside the critical section gets out of it, and a
    thread with entries left gets each of them through [append]. *)
Lemma run_purge (before after : list thread) (rest : list string)
    (lk : bool) (cap : nat) (es : list string) :
  forall sz, exists evs,
    run (mkSystem (before ++ mkThread rest Purging :: after) lk
                  (Log.mk es sz cap))
        evs
        (mkSystem (before ++ mkThread rest Idle :: after) false
                  (Log.evict (Log.mk es sz cap))) /\
    offered evs = [].
Proof.
  induction es as [|e es IH]; intros sz.
  - exists []. split; [|reflexivity].
    eapply run_silent; [|apply run_done].
    apply step_leave. now right.
  - destruct (Nat.ltb_spec cap sz) as [Hover|Hfit].
    + rewrite (evict_step e es sz cap Hover).
      destruct (IH (sz - Log.entry_size e)) as (evs & Hrun & Hoff).
      exists (Evicted e :: evs). split; [|exact Hoff].
      eapply run_event; [|exact Hrun]. now apply step_evict.
    + rewrite evict_done by (simpl; now left).
      exists []. split; [|reflexivity].
      eapply run_silent; [|apply run_done].
      apply step_leave. now left.
Qed.

Lemma run_append (before after : list thread) (msg : string)
    (rest : list string) (log : Log.t) :
  exists evs,
    run (mkSystem (before ++ mkThread (msg :: rest) Idle :: after) false log)
        evs
        (mkSystem (before ++ mkThread rest Idle :: after) false
                  (Log.append msg log)) /\
    offered evs = [msg].
Proof.
  destruct (Nat.le_gt_cases (Log.entry_size msg) (Log.maxsize log))
    as [Hfit|Hbig].
  - rewrite (append_accepts msg log Hfit).
    destruct (Log.add msg log) as [es sz cap] eqn:E.
    destruct (run_purge before after rest true cap es sz)
      as (evs & Hrun & Hoff).
    exists (Added msg :: evs). split; [|simpl; now rewrite Hoff].
    eapply run_silent; [apply step_enter|].
    eapply run_event; [now apply step_add|].
    rewrite E. exact Hrun.
  - rewrite (append_rejects msg log Hbig).
    exists [Rejected msg]. split; [|reflexivity].
    eapply run_silent; [apply step_enter|].
    eapply run_event; [now apply step_reject|apply run_done].
Qed.

Lemma run_thread (before after : list thread) (q : list string) :
  forall log, exists evs,
    run (mkSystem (before ++ mkThread q Idle :: after) false log) evs
        (mkSystem (before ++ mkThread [] Idle :: after) false
                  (Log.appends q log)) /\
    offered evs = q.
Proof.
  induction q as [|m q IH]; intros log.
  - exists []. split; [constructor|reflexivity].
  - destruct (run_append before after m q log) as (e1 & H1 & O1).
    destruct (IH (Log.append m log)) as (e2 & H2 & O2).
    exists (e1 ++ e2). split; [now apply run_trans with (b := mkSystem
      (before ++ mkThread q Idle :: after) false (Log.append m log))|].
    now rewrite offered_app, O1, O2.
Qed.

Lemma run_all (work : list (list string)) :
  forall done log, exists evs,
    run (mkSystem (done ++ map spawn work) false log) evs
        (mkSystem (done ++ map (fun _ => mkThread [] Idle) work) false
                  (Log.appends (List.concat work) log)) /\
    offered evs = List.concat work.
Proof.
  induction work as [|q qs IH]; intros done log.
  - exists []. split; [constructor|reflexivity].
  - destruct (run_thread done (map spawn qs) q log) as (e1 & H1 & O1).
    destruct (IH (done ++ [mkThread [] Idle]) (Log.appends q log))
      as (e2 & H2 & O2).
    rewrite <- !app_assoc in H2. simpl in H2.
    exists (e1 ++ e2). simpl. rewrite appends_app. split.
    + eapply run_trans; [exact H1|exact H2].
    + now rewrite offered_app, O1, O2.
Qed.

(** Executions that finish exist, whatever the threads have to append. *)
Lemma finishing_run_exists (cap : nat) (work : list (list string)) :
  exists evs final,
    run (start cap work) evs final /\ finished final /\
    offered evs = List.concat work.
Proof.
  destruct (run_all work [] (Log.init cap)) as (evs & Hrun & Hoff).
  exists evs. eexists. split; [exact Hrun|]. split; [|exact Hoff].
  unfold finished. simpl. apply Forall_map. now apply Forall_forall.
Qed.




End ConcurrentClaims.

(** ** The theorems at work on concrete inputs *)

Section Witnesses.

Import Flags Demo.
Local Open Scope string_scope.

(** Flag word 2 has [ZFS_DEBUG_DBUF_VERIFY] set and [ZFS_DEBUG_DPRINTF]
    clear: the counter that the arguments would bump stays where it was. *)
Lemma dprintf_clear_bit_does_nothing_witness :
  Z.land (zfs_flags (boot 2 0 1 100)) ZFS_DEBUG_DPRINTF = 0 /\
  @dprintf test_host true "zio.c" "zio_free" 42
     (counting_args "freeing") (boot 2 0 1 100)
  = Returns tt (boot 2 0 1 100).
Proof.
  split; [reflexivity|].
  apply (proj1 (@dprintf_clear_bit_does_nothing test_host true
                  "zio.c" "zio_free" 42
                  (counting_args "freeing") (boot 2 0 1 100))).
  reflexivity.
Defined.

(** Recording on and every category off: the record is made. *)
Lemma zfs_dbgmsg_gated_by_enable_only_witness :
  zfs_dbgmsg_enable (boot 0 0 1 100) <> 0 /\
  @zfs_dbgmsg test_host "spa.c" "spa_load" 7
     (counting_args "loading") (boot 0 0 1 100)
  = (a <- counting_args "loading" ;;
     @__dprintf test_host false "spa.c" "spa_load" 7 (fst a) (snd a))
      (boot 0 0 1 100).
Proof.
  assert (H : zfs_dbgmsg_enable (boot 0 0 1 100) <> 0) by (simpl; lia).
  split; [exact H|].
  exact (proj1 (@zfs_dbgmsg_gated_by_enable_only test_host
                  "spa.c" "spa_load" 7 (boot 0 0 1 100))
               (counting_args "loading") H).
Defined.

(** Recovery off: the description is logged and the abort mechanism is
    entered once. *)
Lemma zfs_panic_recover_policy_witness :
  zfs_recover (boot 0 0 1 100) = 0 /\
  returned (@zfs_panic_recover test_host "blkptr invalid" []
              (boot 0 0 1 100)) = false /\
  aborts (final_state (@zfs_panic_recover test_host "blkptr invalid" []
                         (boot 0 0 1 100))) = 1%nat.
Proof.
  assert (H : zfs_recover (boot 0 0 1 100) = 0) by reflexivity.
  split; [exact H|].
  exact (proj2 (proj2 (proj2 (@zfs_panic_recover_policy test_host
                                "blkptr invalid" [] (boot 0 0 1 100))) H)).
Defined.

(** A short line on an empty log of 100 bytes. *)
Lemma dprintf_line_format_witness :
  Log.consistent (zfs_dbgmsgs (boot 1 0 1 100)) /\
  (Log.entry_size (@render test_host "arc.c" "arc_read" 42 "hit" [])
     <= Log.maxsize (zfs_dbgmsgs (boot 1 0 1 100)))%nat /\
  exists older,
    Log.entries
      (zfs_dbgmsgs (final_state
         (@__dprintf test_host true "arc.c" "arc_read" 42 "hit" []
            (boot 1 0 1 100))))
    = (older ++ ["arc.c:arc_read:42: hit"])%list.
Proof.
  assert (Hc : Log.consistent (zfs_dbgmsgs (boot 1 0 1 100)))
    by reflexivity.
  assert (Hf : (Log.entry_size
                  (@render test_host "arc.c" "arc_read" 42 "hit" [])
                <= Log.maxsize (zfs_dbgmsgs (boot 1 0 1 100)))%nat)
    by (vm_compute; lia).
  split; [exact Hc|]. split; [exact Hf|].
  exact (proj2 (proj2 (@dprintf_line_format test_host true
                         "arc.c" "arc_read" 42 "hit" []
                         (boot 1 0 1 100))) Hc Hf).
Defined.

(** An entry larger than the cap is turned down and the log keeps what it
    had. *)
Example oversized_entry_is_rejected :
  Log.entries (Log.append (Log.fill "x" 150)
                 (Log.appends [Log.fill "a" 40; Log.fill "b" 40]
                    (Log.init 100)))
  = [Log.fill "a" 40; Log.fill "b" 40].
Proof. reflexivity. Qed.

Example render_example :
  @render test_host "arc.c" "arc_read" 42 "hit" [] = "arc.c:arc_read:42: hit".
Proof. reflexivity. Qed.

(** With the category bit set the arguments are evaluated, once, and the
    line is recorded. *)
Example dprintf_set_bit_example :
  let after := final_state
                 (@dprintf test_host true "zio.c" "zio_free" 42
                    (counting_args "freeing") (boot 1 0 0 100)) in
  world after = 1%nat /\
  Log.entries (zfs_dbgmsgs after) = ["zio.c:zio_free:42: freeing"].
Proof. split; reflexivity. Qed.

(** With the bit clear, or without [ZFS_DEBUG], they are not. *)
Example dprintf_clear_bit_example :
  world (final_state
           (@dprintf test_host true "zio.c" "zio_free" 42
              (counting_args "freeing") (boot 2 0 1 100))) = 0%nat /\
  world (final_state
           (@dprintf test_host false "zio.c" "zio_free" 42
              (counting_args "freeing") (boot 1 0 1 100))) = 0%nat.
Proof. split; reflexivity. Qed.

End Witnesses.

(** ** Flag words: what the category tests read *)

Section FlagWordFacts.

Import Flags FlagWord.

Lemma category_bits_nonneg : Forall (fun k => 0 <= k) category_bits.
Proof.
  apply Forall_forall. intros k Hk.
  destruct (category_bits_range k Hk). lia.
Qed.

Lemma testbit_word_of (cs : list Z) (n : Z) :
  Z.testbit (word_of cs) n = existsb (fun c => Z.testbit c n) cs.
Proof.
  unfold word_of. induction cs as [|c cs IH]; simpl.
  - apply Z.bits_0.
  - now rewrite Z.lor_spec, IH.
Qed.

Lemma existsb_filter (p q : Z -> bool) (l : list Z) :
  existsb q (filter p l) = existsb (fun c => p c && q c) l.
Proof.
  induction l as [|c l IH]; simpl; [reflexivity|].
  destruct (p c); simpl; now rewrite IH.
Qed.

(** Among single-bit masks, the active ones that have bit [n] are found by
    looking at bit [n] of the word. *)
Lemma existsb_active_bits (f n : Z) (bits : list Z) :
  Forall (fun k => 0 <= k) bits -> 0 <= n ->
  existsb (fun c => active f c && Z.testbit c n) (map (Z.shiftl 1) bits) =
  Z.testbit f n && existsb (fun c => Z.testbit c n) (map (Z.shiftl 1) bits).
Proof.
  intros Hbits Hn. induction Hbits as [|k bits Hk _ IH]; simpl.
  - now rewrite andb_false_r.
  - rewrite IH, active_single_bit by assumption.
    rewrite Z.shiftl_1_l, Z.pow2_bits_eqb by assumption.
    destruct (Z.eqb_spec k n) as [->|Hne].
    + destruct (Z.testbit f n); reflexivity.
    + rewrite andb_false_r. simpl.
      destruct (Z.testbit f n); reflexivity.
Qed.

Lemma all_categories_bit (k : Z) :
  In k category_bits -> Z.testbit all_categories k = true.
Proof.
  unfold category_bits. simpl. intros H.
  repeat (destruct H as [<-|H]; [reflexivity|]). contradiction.
Qed.

Lemma filter_none (p : Z -> bool) (l : list Z) :
  (forall c, In c l -> p c = false) -> filter p l = [].
Proof.
  induction l as [|c l IH]; intros H; simpl; [reflexivity|].
  rewrite (H c) by now left. apply IH. intros d Hd. apply H. now right.
Qed.

Lemma masked_word_rebuilt (flags : Z) :
  Z.land flags all_categories = word_of (active_categories flags).
Proof.
  apply Z.bits_inj'. intros n Hn.
  rewrite Z.land_spec. unfold all_categories, active_categories.
  fold (word_of categories). rewrite !testbit_word_of, existsb_filter.
  rewrite categories_are_shifts. symmetry.
  apply existsb_active_bits; [apply category_bits_nonneg|exact Hn].
Qed.

(** X2: The category bits of a flag word are the masks of its active
    categories or-ed together: the eleven tests read the masked word
    completely, and two words with the same eleven answers have the same
    category bits. *)
Theorem active_categories_rebuild_word (flags : Z) :
  Z.land flags all_categories = word_of (active_categories flags) /\
  (forall flags',
     (forall c, In c categories -> active flags' c = active flags c) ->
     Z.land flags' all_categories = Z.land flags all_categories).
Proof.
  split; [apply masked_word_rebuilt|].
  intros flags' Hsame. rewrite !masked_word_rebuilt.
  unfold active_categories. f_equal.
  apply filter_ext_in. exact Hsame.
Qed.

(** X3: Every category test looks only at the bits that some category owns
    ([0xfdf]): bit 5 and the bits from 12 up never matter, and a word
    activates no category exactly when it has none of the owned bits. *)
Theorem tests_read_only_category_bits (flags : Z) :
  all_categories = 4063 /\
  (forall c, In c categories ->
     active flags c = active (Z.land flags all_categories) c) /\
  ((forall c, In c categories -> active flags c = false) <->
   Z.land flags all_categories = 0).
Proof.
  assert (Hmask : forall f c, In c categories ->
            active f c = active (Z.land f all_categories) c).
  { intros f c Hc. apply in_categories in Hc. destruct Hc as (k & Hk & ->).
    destruct (category_bits_range k Hk) as [Hr _].
    rewrite !active_single_bit by lia.
    rewrite Z.land_spec, (all_categories_bit k Hk). now rewrite andb_true_r. }
  split; [reflexivity|]. split; [apply Hmask|]. split.
  - intros Hnone. rewrite masked_word_rebuilt.
    unfold active_categories. now rewrite (filter_none _ _ Hnone).
  - intros Hzero c Hc. rewrite (Hmask flags c Hc), Hzero. reflexivity.
Qed.

(** X4: A word built by or-ing a set of the header's categories activates
    exactly the categories of that set. *)
Theorem word_of_activates_exactly (cs : list Z) (c : Z) :
  incl cs categories -> In c categories ->
  (active (word_of cs) c = true <-> In c cs).
Proof.
  intros Hcs Hc. apply in_categories in Hc. destruct Hc as (k & Hk & ->).
  destruct (category_bits_range k Hk) as [Hr _].
  rewrite active_single_bit, testbit_word_of, existsb_exists by lia.
  split.
  - intros (d & Hd & Hbit).
    destruct (proj1 (in_categories d) (Hcs d Hd)) as (j & Hj & ->).
    destruct (category_bits_range j Hj) as [Hjr _].
    rewrite Z.shiftl_1_l, Z.pow2_bits_eqb in Hbit by lia.
    apply Z.eqb_eq in Hbit. now subst j.
  - intros Hin. exists (Z.shiftl 1 k). split; [exact Hin|].
    rewrite Z.shiftl_1_l. apply Z.pow2_bits_true. lia.
Qed.

Lemma word_of_activates_exactly_witness :
  incl [ZFS_DEBUG_DPRINTF; ZFS_DEBUG_TRIM] categories /\
  In ZFS_DEBUG_TRIM categories /\
  (active (word_of [ZFS_DEBUG_DPRINTF; ZFS_DEBUG_TRIM]) ZFS_DEBUG_TRIM = true
   <-> In ZFS_DEBUG_TRIM [ZFS_DEBUG_DPRINTF; ZFS_DEBUG_TRIM]).
Proof.
  assert (Hi : incl [ZFS_DEBUG_DPRINTF; ZFS_DEBUG_TRIM] categories).
  { intros c [<-|[<-|[]]]; simpl; auto 15. }
  assert (Ht : In ZFS_DEBUG_TRIM categories) by (simpl; auto 15).
  split; [exact Hi|]. split; [exact Ht|].
  exact (word_of_activates_exactly _ _ Hi Ht).
Defined.

(** X5: Setting a category makes its own test succeed and clearing it makes the
    test fail, whatever the word held; and a set is undone by a clear, a
    clear by a set. *)
Theorem set_clear_own_bit (flags c : Z) :
  In c categories ->
  active (set_category flags c) c = true /\
  active (clear_category flags c) c = false /\
  clear_category (set_category flags c) c = clear_category flags c /\
  set_category (clear_category flags c) c = set_category flags c.
Proof.
  intros Hc. apply in_categories in Hc. destruct Hc as (k & Hk & ->).
  destruct (category_bits_range k Hk) as [Hr _].
  rewrite !active_single_bit by lia.
  unfold set_category, clear_category.
  rewrite Z.lor_spec, Z.land_spec, Z.lnot_spec by lia.
  rewrite Z.shiftl_1_l, Z.pow2_bits_true by lia.
  split; [apply orb_true_r|]. split; [apply andb_false_r|].
  split; apply Z.bits_inj'; intros n Hn;
    rewrite ?Z.lor_spec, ?Z.land_spec, ?Z.lnot_spec, ?Z.lor_spec by assumption;
    destruct (Z.testbit flags n), (Z.testbit (2 ^ k) n); reflexivity.
Qed.

Lemma set_clear_own_bit_witness :
  In ZFS_DEBUG_SET_ERROR categories /\
  active (set_category 0 ZFS_DEBUG_SET_ERROR) ZFS_DEBUG_SET_ERROR = true /\
  active (clear_category (-1) ZFS_DEBUG_SET_ERROR) ZFS_DEBUG_SET_ERROR
    = false.
Proof.
  assert (H : In ZFS_DEBUG_SET_ERROR categories) by (simpl; auto 15).
  split; [exact H|].
  split; [exact (proj1 (set_clear_own_bit 0 _ H))|].
  exact (proj1 (proj2 (set_clear_own_bit (-1) _ H))).
Defined.

(** X6: Every mask is a positive value below [2^15], so no shift of lines 46-57
    overflows an [int]; and a test gives the same answer on a flag word and
    on its 32 bits read as unsigned, so the sign of [zfs_flags] plays no
    part. *)
Theorem tests_ignore_signedness (v c : Z) :
  In c categories ->
  0 < c < 2 ^ 15 /\
  active (as_unsigned v) c = active v c.
Proof.
  intros Hc. apply in_categories in Hc. destruct Hc as (k & Hk & ->).
  destruct (category_bits_range k Hk) as [Hr _]. split.
  - rewrite Z.shiftl_1_l. split; [apply Z.pow_pos_nonneg; lia|].
    apply Z.pow_lt_mono_r; lia.
  - rewrite !active_single_bit by lia. unfold as_unsigned.
    apply Z.mod_pow2_bits_low. lia.
Qed.

Lemma tests_ignore_signedness_witness :
  In ZFS_DEBUG_TRIM categories /\
  active (as_unsigned (-1)) ZFS_DEBUG_TRIM = active (-1) ZFS_DEBUG_TRIM.
Proof.
  assert (H : In ZFS_DEBUG_TRIM categories) by (simpl; auto 15).
  split; [exact H|].
  exact (proj2 (tests_ignore_signedness (-1) _ H)).
Defined.

End FlagWordFacts.

(** ** The macros inside [if] ... [else] *)

Section CallSiteFacts.

Import CallSite.

Lemma parse_stmt_if (n : nat) (c : cond) (rest : list token) :
  parse_stmt (S n) (T_if c :: rest) =
  match parse_stmt n rest with
  | Some (s1, T_else :: rest1) =>
      match parse_stmt n rest1 with
      | Some (s2, rest2) => Some (S_if_else c s1 s2, rest2)
      | None => None
      end
  | Some (s1, rest1) => Some (S_if c s1, rest1)
  | None => None
  end.
Proof. reflexivity. Qed.

Lemma parse_stmt_expr (n : nat) (e : expr) (rest : list token) :
  parse_stmt (S n) (T_expr e :: T_semi :: rest) = Some (S_expr e, rest).
Proof. reflexivity. Qed.

(** More fuel does not change what was parsed. *)
Lemma parse_stmt_more_fuel (n : nat) :
  forall ts r, parse_stmt n ts = Some r -> parse_stmt (S n) ts = Some r.
Proof.
  induction n as [|n IH]; intros ts r H; [discriminate|].
  destruct ts as [|t ts]; [discriminate|].
  destruct t; try discriminate.
  - rewrite parse_stmt_if in *.
    destruct (parse_stmt n ts) as [[s1 rest1]|] eqn:E1; [|discriminate].
    rewrite (IH _ _ E1).
    destruct rest1 as [|t1 rest1]; [exact H|].
    destruct t1; try exact H.
    destruct (parse_stmt n rest1) as [[s2 rest2]|] eqn:E2; [|discriminate].
    now rewrite (IH _ _ E2).
  - destruct ts as [|t ts]; [discriminate|].
    destruct t; try discriminate. exact H.
Qed.

Lemma parse_stmt_needs_fuel (n : nat) (ts : list token)
    (r : stmt * list token) :
  parse_stmt n ts = Some r -> exists m, n = S m.
Proof. destruct n; [discriminate|]. intros _. now exists n. Qed.

Lemma if_without_else (n : nat) (c : cond) (ts rest : list token)
    (s1 : stmt) :
  parse_stmt n ts = Some (s1, rest) -> no_else_next rest ->
  parse_stmt (S n) (T_if c :: ts) = Some (S_if c s1, rest).
Proof.
  intros H Hrest. rewrite parse_stmt_if, H.
  destruct rest as [|t rest]; [reflexivity|].
  destruct t; try reflexivity. contradiction.
Qed.

(** X7: [if (c) zfs_dbgmsg(...); else S]: the [else] goes to the [if] the macro
    brings in, not to the caller's.  So [S] runs when [c] holds and
    [zfs_dbgmsg_enable] is zero, and nothing runs when [c] fails. *)
Theorem zfs_dbgmsg_takes_following_else (ZFS_DEBUG : bool) (c n : nat)
    (ts rest : list token) (s2 : stmt) :
  parse_stmt n (expand ZFS_DEBUG ts) = Some (s2, rest) ->
  no_else_next rest ->
  parse_stmt (S (S n))
    (expand ZFS_DEBUG
       (T_if (C_user c) :: T_zfs_dbgmsg :: T_semi :: T_else :: ts))
  = Some (S_if (C_user c)
            (S_if_else C_dbgmsg_enable (S_expr (E_dprintf false)) s2),
          rest) /\
  forall env,
    exec env (S_if (C_user c)
                (S_if_else C_dbgmsg_enable (S_expr (E_dprintf false)) s2))
    = if env (C_user c)
      then if env C_dbgmsg_enable then [E_dprintf false] else exec env s2
      else [].
Proof.
  intros H Hrest. split; [|reflexivity].
  destruct (parse_stmt_needs_fuel _ _ _ H) as [m ->].
  change (expand ZFS_DEBUG
            (T_if (C_user c) :: T_zfs_dbgmsg :: T_semi :: T_else :: ts))
    with (T_if (C_user c) :: T_if C_dbgmsg_enable ::
          T_expr (E_dprintf false) :: T_semi :: T_else ::
          expand ZFS_DEBUG ts).
  apply if_without_else; [|exact Hrest].
  now rewrite parse_stmt_if, parse_stmt_expr, H.
Qed.

Lemma zfs_dbgmsg_takes_following_else_witness :
  parse_stmt 1 (expand true [T_expr (E_user 1); T_semi])
    = Some (S_expr (E_user 1), []) /\
  no_else_next [] /\
  parse_stmt 3
    (expand true
       [T_if (C_user 0); T_zfs_dbgmsg; T_semi; T_else;
        T_expr (E_user 1); T_semi])
  = Some (S_if (C_user 0)
            (S_if_else C_dbgmsg_enable (S_expr (E_dprintf false))
               (S_expr (E_user 1))),
          []).
Proof.
  split; [reflexivity|]. split; [exact I|].
  exact (proj1 (zfs_dbgmsg_takes_following_else true 0 1
                  [T_expr (E_user 1); T_semi] [] (S_expr (E_user 1))
                  eq_refl I)).
Defined.

(** X8: [if (c) dprintf(...); else S] is a different statement in the two
    builds.  With [ZFS_DEBUG] the [else] goes to the macro's [if]; without
    it, to the caller's.  When [c] fails, the build without [ZFS_DEBUG]
    runs [S] and the build with it runs nothing. *)
Theorem dprintf_else_differs_between_builds (ZFS_DEBUG : bool) (c n : nat)
    (ts rest : list token) (s2 : stmt) :
  parse_stmt n (expand ZFS_DEBUG ts) = Some (s2, rest) ->
  no_else_next rest ->
  parse_stmt (S (S n))
    (expand ZFS_DEBUG
       (T_if (C_user c) :: T_dprintf :: T_semi :: T_else :: ts))
  = Some (if ZFS_DEBUG
          then S_if (C_user c)
                 (S_if_else C_dprintf_bit (S_expr (E_dprintf true)) s2)
          else S_if_else (C_user c) (S_expr E_void0) s2,
          rest) /\
  forall env,
    env (C_user c) = false ->
    exec env (if ZFS_DEBUG
              then S_if (C_user c)
                     (S_if_else C_dprintf_bit (S_expr (E_dprintf true)) s2)
              else S_if_else (C_user c) (S_expr E_void0) s2)
    = if ZFS_DEBUG then [] else exec env s2.
Proof.
  intros H Hrest. split.
  - destruct (parse_stmt_needs_fuel _ _ _ H) as [m ->].
    destruct ZFS_DEBUG.
    + change (expand true
                (T_if (C_user c) :: T_dprintf :: T_semi :: T_else :: ts))
        with (T_if (C_user c) :: T_if C_dprintf_bit ::
              T_expr (E_dprintf true) :: T_semi :: T_else ::
              expand true ts).
      apply if_without_else; [|exact Hrest].
      now rewrite parse_stmt_if, parse_stmt_expr, H.
    + change (expand false
                (T_if (C_user c) :: T_dprintf :: T_semi :: T_else :: ts))
        with (T_if (C_user c) :: T_expr E_void0 :: T_semi :: T_else ::
              expand false ts).
      rewrite parse_stmt_if, parse_stmt_expr.
      now rewrite (parse_stmt_more_fuel _ _ _ H).
  - intros env Hc. destruct ZFS_DEBUG; simpl; now rewrite Hc.
Qed.

Lemma dprintf_else_differs_between_builds_witness :
  parse_stmt 1 (expand false [T_expr (E_user 1); T_semi])
    = Some (S_expr (E_user 1), []) /\
  no_else_next [] /\
  parse_stmt 3
    (expand false
       [T_if (C_user 0); T_dprintf; T_semi; T_else;
        T_expr (E_user 1); T_semi])
  = Some (S_if_else (C_user 0) (S_expr E_void0) (S_expr (E_user 1)), []).
Proof.
  split; [reflexivity|]. split; [exact I|].
  exact (proj1 (dprintf_else_differs_between_builds false 0 1
                  [T_expr (E_user 1); T_semi] [] (S_expr (E_user 1))
                  eq_refl I)).
Defined.

End CallSiteFacts.

(** ** The two macros side by side *)

Section MacroFacts.

Context {host : Host}.

Import Flags.

Lemma active_dprintf_odd (flags : Z) :
  active flags ZFS_DEBUG_DPRINTF = Z.odd flags.
Proof.
  unfold ZFS_DEBUG_DPRINTF. rewrite active_single_bit by lia.
  apply Z.bit0_odd.
Qed.

(** X1: In a [ZFS_DEBUG] build, [dprintf] makes its call exactly when
    [zfs_flags] is odd, negative values included; no other bit and no other
    global takes part. *)
Theorem dprintf_runs_iff_flags_odd (file func : string) (line : Z)
    (va : va_args) (s : state) :
  dprintf true file func line va s =
  if Z.odd (zfs_flags s)
  then (a <- va ;; __dprintf true file func line (fst a) (snd a)) s
  else Returns tt s.
Proof.
  unfold dprintf. now rewrite active_dprintf_odd.
Qed.

(** X9: [zfs_dbgmsg(...); dprintf(...);] with arguments free of side effects:
    each macro decides on its own global.  The first line is recorded when
    [zfs_dbgmsg_enable] is non-zero, the second when the build has
    [ZFS_DEBUG] and [zfs_flags] is odd (also with [zfs_dbgmsg_enable]
    zero), in this order, and control always comes back. *)
Theorem macros_gate_independently (ZFS_DEBUG : bool)
    (file1 func1 : string) (line1 : Z) (a1 : string * va_list)
    (file2 func2 : string) (line2 : Z) (a2 : string * va_list)
    (s : state) :
  (_ <- zfs_dbgmsg file1 func1 line1 (ret a1) ;;
   dprintf ZFS_DEBUG file2 func2 line2 (ret a2)) s =
  Returns tt
    (with_log
       (Log.appends
          ((if truthy (zfs_dbgmsg_enable s)
            then [render file1 func1 line1 (fst a1) (snd a1)] else []) ++
           (if ZFS_DEBUG && Z.odd (zfs_flags s)
            then [render file2 func2 line2 (fst a2) (snd a2)] else [])))
       s).
Proof.
  destruct s as [flags recover leak enable log ab w].
  unfold bind, zfs_dbgmsg, dprintf, ret, __dprintf, __zfs_dbgmsg, with_log.
  simpl. rewrite <- (active_dprintf_odd flags).
  destruct (truthy enable), ZFS_DEBUG; simpl;
    try destruct (active flags ZFS_DEBUG_DPRINTF); reflexivity.
Qed.

End MacroFacts.
